(** * Sliding-window rate limiter ([task3_rate_limiter.py])

    A shallow embedding of the [RateLimiter] class and the properties its
    design document states about it.

    Conventions of the embedding.
    - Timestamps and [window_seconds] are exact rationals ([Q]): Python
      ints and floats are both read as the number they denote, so the
      rounding error of binary floating point is outside the model, while
      the explicit [round(_, 2)] of the source is inside it.
    - [max_requests] and every count are Python ints ([Z]).
    - [self._requests] is a [defaultdict] of deques: a [gmap string (list Q)]
      whose lookup of an absent key creates an empty entry; a deque is a
      list, oldest entry first.
    - Methods are run one at a time (the source holds [self._lock] for the
      whole body), so a method is a function from the limiter before the
      call to the limiter after it and the value returned or raised.
    - [current_time] is the timestamp after the [if current_time is None]
      default has been resolved ([resolve_time]). *)

From Stdlib Require Import ZArith QArith Lqa Lia List Sorted.
From stdpp Require Import gmap strings list fin_maps pretty sorting.

Local Open Scope Z_scope.

(** ** Python values used by the class *)

Inductive exn : Type :=
| ValueError (msg : string)
| IndexError (msg : string).

Inductive result (A : Type) : Type :=
| Return (a : A)
| Raise (e : exn).
Arguments Return {A} a.
Arguments Raise {A} e.

(** [x < y] on numbers. *)
Definition Qltb (x y : Q) : bool := negb (Qle_bool y x).

(** [max(a, b)]: Python returns the first argument unless the second is
    strictly greater. *)
Definition py_max (a b : Q) : Q := if Qltb a b then b else a.

(** Nearest integer, ties to the even one (the rounding of [round] and of
    the [.1f] format). *)
Definition round_half_even (x : Q) : Z :=
  let n := Qnum x in
  let d := Zpos (Qden x) in
  let fl := n / d in
  match Z.compare (2 * (n mod d)) d with
  | Lt => fl
  | Gt => fl + 1
  | Eq => if Z.even fl then fl else fl + 1
  end.

(** [round(x, ndigits)] for [ndigits >= 0]. *)
Definition round (x : Q) (ndigits : nat) : Q :=
  match ndigits with
  | O => inject_Z (round_half_even x)
  | S _ =>
      let scale := Pos.pow 10 (Pos.of_nat ndigits) in
      Qmake (round_half_even (x * inject_Z (Zpos scale))) scale
  end.

(** [f"{x:.1f}"]: one digit after the point, a minus sign for a negative
    number. *)
Definition format_1f (x : Q) : string :=
  let r := Z.abs (round_half_even (x * inject_Z 10)) in
  ((if Qltb x 0 then "-" else "") +:+ pretty (r / 10) +:+ "." +:+ pretty (r mod 10))%string.

(** ** The limiter *)

Record RateLimiter : Type := {
  max_requests : Z;
  window_seconds : Q;
  _requests : gmap string (list Q)
}.

(** Default arguments of [__init__]. *)
Definition default_max_requests : Z := 5.
Definition default_window_seconds : Q := inject_Z 60.

(** [RateLimiter(max_requests, window_seconds)]. *)
Definition __init__ (max_requests : Z) (window_seconds : Q) : result RateLimiter :=
  if max_requests <=? 0 then Raise (ValueError "max_requests must be positive")
  else if Qle_bool window_seconds 0 then Raise (ValueError "window_seconds must be positive")
  else Return {| max_requests := max_requests;
                 window_seconds := window_seconds;
                 _requests := ∅ |}.

(** [if current_time is None: current_time = time.time()], with
    [time_time] the reading of the clock at the call. *)
Definition resolve_time (time_time : Q) (current_time : option Q) : Q :=
  match current_time with
  | None => time_time
  | Some t => t
  end.

(** [self._requests[user_id]] on the [defaultdict]: the deque of the key,
    a new empty one when the key is absent. *)
Definition getitem (requests : gmap string (list Q)) (user_id : string) : list Q :=
  default [] (requests !! user_id).

(** [while user_requests and user_requests[0] < cutoff_time:
       user_requests.popleft()] *)
Fixpoint evict (cutoff_time : Q) (user_requests : list Q) : list Q :=
  match user_requests with
  | [] => []
  | oldest :: rest =>
      if Qltb oldest cutoff_time then evict cutoff_time rest else user_requests
  end.

(** [user_requests[0]] *)
Definition deque_first (user_requests : list Q) : result Q :=
  match user_requests with
  | [] => Raise (IndexError "deque index out of range")
  | oldest :: _ => Return oldest
  end.

(** The [info] dict of [is_allowed]; a key that one of the two branches
    does not set is [None]. *)
Module Info.
Record t : Type := {
  allowed : bool;
  user_id : string;
  current_requests : Z;
  max_requests : Z;
  window_seconds : Q;
  remaining_requests : option Z;
  time_until_reset : option Q;
  message : string
}.
End Info.

(** The dict returned by [get_status]. *)
Module Status.
Record t : Type := {
  user_id : string;
  current_requests : Z;
  max_requests : Z;
  window_seconds : Q;
  remaining_requests : Z;
  time_until_reset : Q;
  is_allowed : bool
}.
End Status.

(** [self.is_allowed(user_id, current_time)]: the limiter after the call
    and the pair returned (or the exception raised). *)
Definition is_allowed (self : RateLimiter) (user_id : string) (current_time : Q)
  : RateLimiter * result (bool * Info.t) :=
  let user_requests := getitem (_requests self) user_id in
  let cutoff_time := (current_time - window_seconds self)%Q in
  let user_requests := evict cutoff_time user_requests in
  let request_count := Z.of_nat (length user_requests) in
  if max_requests self <=? request_count then
    let self' := {| max_requests := max_requests self;
                    window_seconds := window_seconds self;
                    _requests := <[user_id := user_requests]> (_requests self) |} in
    match deque_first user_requests with
    | Raise e => (self', Raise e)
    | Return oldest_request =>
        let time_until_reset := (window_seconds self - (current_time - oldest_request))%Q in
        (self', Return (false,
           {| Info.allowed := false;
              Info.user_id := user_id;
              Info.current_requests := request_count;
              Info.max_requests := max_requests self;
              Info.window_seconds := window_seconds self;
              Info.remaining_requests := None;
              Info.time_until_reset := Some (round time_until_reset 2);
              Info.message :=
                ("Rate limit exceeded. Try again in " +:+ format_1f time_until_reset
                 +:+ " seconds.")%string |}))
    end
  else
    let user_requests := user_requests ++ [current_time] in
    ({| max_requests := max_requests self;
        window_seconds := window_seconds self;
        _requests := <[user_id := user_requests]> (_requests self) |},
     Return (true,
       {| Info.allowed := true;
          Info.user_id := user_id;
          Info.current_requests := request_count + 1;
          Info.max_requests := max_requests self;
          Info.window_seconds := window_seconds self;
          Info.remaining_requests := Some (max_requests self - (request_count + 1));
          Info.time_until_reset := None;
          Info.message := "Request allowed" |})).

(** [self.get_status(user_id, current_time)]. *)
Definition get_status (self : RateLimiter) (user_id : string) (current_time : Q)
  : RateLimiter * Status.t :=
  let user_requests := getitem (_requests self) user_id in
  let cutoff_time := (current_time - window_seconds self)%Q in
  let user_requests := evict cutoff_time user_requests in
  let request_count := Z.of_nat (length user_requests) in
  let time_until_reset :=
    match user_requests with
    | oldest_request :: _ =>
        py_max 0 (window_seconds self - (current_time - oldest_request))%Q
    | [] => 0%Q
    end in
  ({| max_requests := max_requests self;
      window_seconds := window_seconds self;
      _requests := <[user_id := user_requests]> (_requests self) |},
   {| Status.user_id := user_id;
      Status.current_requests := request_count;
      Status.max_requests := max_requests self;
      Status.window_seconds := window_seconds self;
      Status.remaining_requests := max_requests self - request_count;
      Status.time_until_reset := round time_until_reset 2;
      Status.is_allowed := request_count <? max_requests self |}).

(** [self.reset_user(user_id)]. *)
Definition reset_user (self : RateLimiter) (user_id : string) : RateLimiter :=
  match _requests self !! user_id with
  | Some _ =>
      {| max_requests := max_requests self;
         window_seconds := window_seconds self;
         _requests := delete user_id (_requests self) |}
  | None => self
  end.

(** [self.reset_all()]. *)
Definition reset_all (self : RateLimiter) : RateLimiter :=
  {| max_requests := max_requests self;
     window_seconds := window_seconds self;
     _requests := ∅ |}.

(** ** Sequences of calls *)

Inductive call : Type :=
| IsAllowed (user_id : string) (current_time : Q)
| GetStatus (user_id : string) (current_time : Q)
| ResetUser (user_id : string)
| ResetAll.

Inductive returned : Type :=
| RetIsAllowed (r : result (bool * Info.t))
| RetGetStatus (s : Status.t)
| RetNone.

(** One method call on the limiter. *)
Definition perform (self : RateLimiter) (c : call) : RateLimiter * returned :=
  match c with
  | IsAllowed user_id current_time =>
      let '(self', r) := is_allowed self user_id current_time in (self', RetIsAllowed r)
  | GetStatus user_id current_time =>
      let '(self', s) := get_status self user_id current_time in (self', RetGetStatus s)
  | ResetUser user_id => (reset_user self user_id, RetNone)
  | ResetAll => (reset_all self, RetNone)
  end.

(** A caller that makes the calls one after the other (and catches what
    they raise): the limiter at the end and the log of calls with what
    each returned. *)
Fixpoint run (self : RateLimiter) (cs : list call) : RateLimiter * list (call * returned) :=
  match cs with
  | [] => (self, [])
  | c :: cs' =>
      let '(self', r) := perform self c in
      let '(self'', log) := run self' cs' in
      (self'', (c, r) :: log)
  end.

(** The limiters a program can hold: built by the constructor, then used
    through the four methods. *)
Definition reachable (self : RateLimiter) : Prop :=
  exists max_requests window_seconds self0 cs,
    __init__ max_requests window_seconds = Return self0 /\ fst (run self0 cs) = self.

(** The key a call is about ([reset_all] is about none in particular). *)
Definition call_key (c : call) : option string :=
  match c with
  | IsAllowed user_id _ | GetStatus user_id _ | ResetUser user_id => Some user_id
  | ResetAll => None
  end.

(** The call is about key [k]. *)
Definition on_key (k : string) (c : call) : bool :=
  bool_decide (call_key c = Some k).

(** The timestamps of the calls of a sequence that are about key [k]. *)
Fixpoint times_on (k : string) (cs : list call) : list Q :=
  match cs with
  | [] => []
  | IsAllowed user_id t :: cs' | GetStatus user_id t :: cs' =>
      if decide (user_id = k) then t :: times_on k cs' else times_on k cs'
  | _ :: cs' => times_on k cs'
  end.

(** [is_allowed] returned [True] as the first component. *)
Definition admits (r : result (bool * Info.t)) : bool :=
  match r with
  | Return (true, _) => true
  | _ => false
  end.

(** The timestamp of a logged call when it is an [is_allowed] call about
    [k] that was admitted. *)
Definition admitted_time (k : string) (cr : call * returned) : option Q :=
  match cr with
  | (IsAllowed user_id t, RetIsAllowed r) =>
      if admits r && bool_decide (user_id = k) then Some t else None
  | _ => None
  end.



(** What the [is_allowed] calls of a log returned, in order. *)
Fixpoint is_allowed_returns (log : list (call * returned)) : list (call * result (bool * Info.t)) :=
  match log with
  | [] => []
  | (c, RetIsAllowed r) :: log' => (c, r) :: is_allowed_returns log'
  | _ :: log' => is_allowed_returns log'
  end.


(** ** Vocabulary of the statements *)

(** The deque [is_allowed] works on after eviction. *)
Definition kept_at (self : RateLimiter) (user_id : string) (current_time : Q) : list Q :=
  evict (current_time - window_seconds self)%Q (getitem (_requests self) user_id).

(** Two limiters with the same configuration and the same record for
    key [k]. *)
Definition agree_on (k : string) (l1 l2 : RateLimiter) : Prop :=
  max_requests l1 = max_requests l2 /\
  window_seconds l1 = window_seconds l2 /\
  _requests l1 !! k = _requests l2 !! k.

(** The calls of a log that are about key [k], with what they returned. *)
Definition returns_on (k : string) (log : list (call * returned)) : list (call * returned) :=
  List.filter (fun cr => on_key k (fst cr)) log.

(** Every record holds at most [max_requests] entries, and the quota is
    positive. *)
Definition bounded (self : RateLimiter) : Prop :=
  0 < max_requests self /\
  forall k d, _requests self !! k = Some d -> Z.of_nat (length d) <= max_requests self.






(** ** Limiters and call sequences of the examples *)

(** A fresh limiter that admits one request per minute. *)
Definition limiter_one : RateLimiter :=
  {| max_requests := 1; window_seconds := inject_Z 60; _requests := ∅ |}.

(** A fresh limiter that admits two requests per minute. *)
Definition limiter_two : RateLimiter :=
  {| max_requests := 2; window_seconds := inject_Z 60; _requests := ∅ |}.

(** One request per minute, the request of ["u"] at time 0 recorded. *)
Definition limiter_full : RateLimiter :=
  {| max_requests := 1;
     window_seconds := inject_Z 60;
     _requests := {[ "u"%string := [inject_Z 0] ]} |}.


(** [limiter_one] after it admitted ["u"] at time 0. *)
Definition limiter_one_used : RateLimiter :=
  fst (run limiter_one [IsAllowed "u" (inject_Z 0)]).

(** The scenario of the design document: seven requests of ["u"] at time
    0, one at time 61. *)
Definition scenario_calls : list call :=
  replicate 7 (IsAllowed "u" (inject_Z 0)) ++ [IsAllowed "u" (inject_Z 61)].

(** What a caller reads off an [is_allowed] answer in that scenario:
    the flag, [current_requests], [time_until_reset]. *)
Definition summary (cr : call * result (bool * Info.t)) : option (bool * Z * option Q) :=
  match snd cr with
  | Return (b, info) => Some (b, Info.current_requests info, Info.time_until_reset info)
  | Raise _ => None
  end.

(** ["u"] asks at 0, 10, 20 and 65. *)
Definition four_calls : list call :=
  [IsAllowed "u" (inject_Z 0); IsAllowed "u" (inject_Z 10);
   IsAllowed "u" (inject_Z 20); IsAllowed "u" (inject_Z 65)].


(** ** Vocabulary of the further properties *)



(** The keys that the calls of a sequence name. *)
Definition call_keys (cs : list call) : gset string :=
  list_to_set (omap call_key cs).

(** The number of timestamps the limiter holds, over all keys. *)
Definition stored_total (self : RateLimiter) : nat :=
  sum_list_with (fun kd => length (snd kd)) (map_to_list (_requests self)).

(** [limiter_two] after it admitted ["u"] at 0 and at 10. *)
Definition limiter_two_used : RateLimiter :=
  fst (run limiter_two [IsAllowed "u" (inject_Z 0); IsAllowed "u" (inject_Z 10)]).

(** * Text statistics ([task1_text_analyzer.py])

    A Python [str] is the list of its code points. What [analyze_text]
    takes from Python's character tables and float arithmetic is a
    parameter of the embedding: which characters [str.strip] removes
    ([isspace]), [str.lower], which characters the regex class [\w] holds
    ([isword]), the float [0.00] and the float
    [round(total_length / word_count, 2)]. *)

Module TextAnalyzer.

(** The dict that [analyze_text] returns; [F] is the type of floats. *)
Record Analysis (F : Type) : Type := {
  word_count : Z;
  average_word_length : F;
  longest_words : list (list N);
  word_frequency : gmap (list N) Z
}.
Arguments word_count {F} _.
Arguments average_word_length {F} _.
Arguments longest_words {F} _.
Arguments word_frequency {F} _.

(** [a <= b] on [str]: by code points, a proper prefix first. *)
Fixpoint str_leb (a b : list N) : bool :=
  match a, b with
  | [], _ => true
  | _ :: _, [] => false
  | x :: a', y :: b' =>
      if (x <? y)%N then true else if (x =? y)%N then str_leb a' b' else false
  end.

Definition str_le (a b : list N) : Prop := Is_true (str_leb a b).

Definition str_lt (a b : list N) : Prop := str_le a b /\ a <> b.

(** [sorted(list(set(ws)))]: the distinct elements of [ws] in increasing
    order. *)
Definition sorted_set (ws : list (list N)) : list (list N) :=
  merge_sort str_le (remove_dups ws).

(** [dict(Counter(words))]: each word counted, left to right. *)
Definition Counter (words : list (list N)) : gmap (list N) Z :=
  foldl (fun m word => <[word := default 0 (m !! word) + 1]> m) ∅ words.

Section analyze_text.
Context {F : Type}.
Variable float_zero : F.
Variable round_div : Z -> Z -> F.
Variable isspace : N -> bool.
Variable lower : list N -> list N.
Variable isword : N -> bool.

(** [s.lstrip()] *)
Fixpoint lstrip (s : list N) : list N :=
  match s with
  | [] => []
  | c :: s' => if isspace c then lstrip s' else s
  end.

(** [s.strip()] *)
Definition strip (s : list N) : list N := rev (lstrip (rev (lstrip s))).

(** [re.findall(r'\b\w+\b', s)]: the maximal runs of [\w] characters of
    [s], left to right; [cur] holds the run being read, last character
    first. *)
Fixpoint findall_from (cur : list N) (s : list N) : list (list N) :=
  match s with
  | [] => match cur with [] => [] | _ :: _ => [rev cur] end
  | c :: s' =>
      if isword c then findall_from (c :: cur) s'
      else match cur with
           | [] => findall_from [] s'
           | _ :: _ => rev cur :: findall_from [] s'
           end
  end.

Definition findall (s : list N) : list (list N) := findall_from [] s.

(** The dict returned when there is nothing to count. *)
Definition nothing : Analysis F :=
  {| word_count := 0;
     average_word_length := float_zero;
     longest_words := [];
     word_frequency := ∅ |}.

(** [analyze_text(text)]. *)
Definition analyze_text (text : list N) : Analysis F :=
  if bool_decide (text = []) || bool_decide (strip text = []) then nothing
  else
    let words := findall (lower text) in
    match words with
    | [] => nothing
    | _ :: _ =>
        let word_count := Z.of_nat (length words) in
        let total_length := Z.of_nat (sum_list_with length words) in
        let average_word_length := round_div total_length word_count in
        let max_length := max_list_with length words in
        let longest_words :=
          sorted_set (List.filter (fun word => Nat.eqb (length word) max_length) words) in
        let word_frequency := Counter words in
        {| word_count := word_count;
           average_word_length := average_word_length;
           longest_words := longest_words;
           word_frequency := word_frequency |}
    end.

End analyze_text.

(** The ASCII part of Python's character tables, for the examples. *)
Definition ascii_isspace (c : N) : bool :=
  ((9 <=? c) && (c <=? 13) || (28 <=? c) && (c <=? 32))%N.

Definition ascii_lower (s : list N) : list N :=
  map (fun c => if ((65 <=? c) && (c <=? 90))%N then (c + 32)%N else c) s.

Definition ascii_isword (c : N) : bool :=
  ((48 <=? c) && (c <=? 57) || (65 <=? c) && (c <=? 90)
   || (c =? 95) || (97 <=? c) && (c <=? 122))%N.

(** The code points of an ASCII string literal. *)
Definition codes (s : string) : list N :=
  map Ascii.N_of_ascii (String.list_ascii_of_string s).

(** [analyze_text] on ASCII text, the average left as the pair
    [(total_length, word_count)] that it is computed from. *)
Definition analyze_ascii (text : string) : Analysis (Z * Z) :=
  analyze_text (0, 0) (fun total count => (total, count))
    ascii_isspace ascii_lower ascii_isword (codes text).

End TextAnalyzer.

(** The sum of the counts of a frequency dict. *)
Definition total_count (m : gmap (list N) Z) : Z :=
  map_fold (fun _ n acc => n + acc) 0 m.

(** What a count becomes after [c] more occurrences. *)
Definition counted (before : option Z) (c : nat) : option Z :=
  match before, c with
  | None, O => None
  | _, _ => Some (default 0 before + Z.of_nat c)
  end.

(** ** Arithmetic of the comparisons *)

(** Closed comparisons of rationals, and sortedness of a literal list. *)
Ltac Qle_closed := unfold Qle; simpl; lia.
Ltac sorted_closed := repeat constructor; Qle_closed.

Lemma Qltb_true (x y : Q) : Qltb x y = true <-> (x < y)%Q.
Proof.
  unfold Qltb. rewrite negb_true_iff. split.
  - intros H. apply Qnot_le_lt. intros Hle. apply Qle_bool_iff in Hle. congruence.
  - intros H. destruct (Qle_bool y x) eqn:E; [|reflexivity].
    apply Qle_bool_iff in E. lra.
Qed.

Lemma Qltb_false (x y : Q) : Qltb x y = false <-> (y <= x)%Q.
Proof.
  unfold Qltb. rewrite negb_false_iff. apply Qle_bool_iff.
Qed.





Example round_tie_even : (round (59875 # 1000) 2 == 5988 # 100)%Q.
Proof. reflexivity. Qed.

Example round_tie_odd : (round (125 # 1000) 2 == 12 # 100)%Q.
Proof. reflexivity. Qed.

Example round_up : (round (59999 # 1000) 2 == inject_Z 60)%Q.
Proof. reflexivity. Qed.

Example format_1f_60 : format_1f (inject_Z 60) = "60.0"%string.
Proof. vm_compute. reflexivity. Qed.

Example format_1f_tie : format_1f (5925 # 100) = "59.2"%string.
Proof. vm_compute. reflexivity. Qed.

(** ** The documented scenarios *)

Example init_defaults :
  exists self, __init__ default_max_requests default_window_seconds = Return self.
Proof. eexists. reflexivity. Qed.

Example init_invalid :
  __init__ 0 default_window_seconds = Raise (ValueError "max_requests must be positive") /\
  __init__ default_max_requests (inject_Z 0)
    = Raise (ValueError "window_seconds must be positive") /\
  __init__ (-1) default_window_seconds = Raise (ValueError "max_requests must be positive").
Proof. repeat split. Qed.

(** Five admitted with counts 1 to 5, two rejected with count 5 and 60
    seconds to wait, and one admitted at 61 with count 1. *)
Example scenario_5_60 :
  forall self, __init__ 5 (inject_Z 60) = Return self ->
  map summary (is_allowed_returns (snd (run self scenario_calls)))
  = [Some (true, 1, None); Some (true, 2, None); Some (true, 3, None);
     Some (true, 4, None); Some (true, 5, None);
     Some (false, 5, Some (6000 # 100)); Some (false, 5, Some (6000 # 100));
     Some (true, 1, None)].
Proof. intros self [= <-]. vm_compute. reflexivity. Qed.

Example rejection_message :
  exists info,
    snd (is_allowed limiter_one_used "u" (inject_Z 0)) = Return (false, info) /\
    Info.message info = "Rate limit exceeded. Try again in 60.0 seconds."%string.
Proof. eexists. split; vm_compute; reflexivity. Qed.

(** ** Eviction *)

(** Eviction pops a prefix of expired entries and nothing else. *)
Lemma evict_split (c : Q) (d : list Q) :
  exists p, d = p ++ evict c d /\ Forall (fun x => (x < c)%Q) p.
Proof.
  induction d as [|x d IH]; simpl.
  - exists []. split; [reflexivity | constructor].
  - destruct (Qltb x c) eqn:E.
    + destruct IH as (p & Hd & Hp). exists (x :: p). split.
      * simpl. congruence.
      * constructor; [now apply Qltb_true | exact Hp].
    + exists []. split; [reflexivity | constructor].
Qed.

Lemma evict_head (c : Q) (d : list Q) (x : Q) (r : list Q) :
  evict c d = x :: r -> (c <= x)%Q.
Proof.
  induction d as [|y d IH]; simpl; [discriminate|].
  destruct (Qltb y c) eqn:E; [exact IH|].
  intros [= -> _]. now apply Qltb_false.
Qed.

Lemma evict_fixed (c : Q) (d : list Q) :
  match d with [] => True | x :: _ => (c <= x)%Q end -> evict c d = d.
Proof.
  destruct d as [|x d]; simpl; [reflexivity|].
  intros H. apply Qltb_false in H. now rewrite H.
Qed.

Lemma evict_suffix (c : Q) (d : list Q) : evict c d `suffix_of` d.
Proof.
  destruct (evict_split c d) as (p & Hd & _). exists p. exact Hd.
Qed.

Lemma evict_length (c : Q) (d : list Q) : (length (evict c d) <= length d)%nat.
Proof. apply suffix_length, evict_suffix. Qed.

(** A later (larger) cutoff absorbs an earlier one. *)
Lemma evict_evict_le (c1 c2 : Q) (d : list Q) :
  (c2 <= c1)%Q -> evict c1 (evict c2 d) = evict c1 d.
Proof.
  intros Hc. induction d as [|x d IH]; simpl; [reflexivity|].
  destruct (Qltb x c2) eqn:E2.
  - rewrite IH. apply Qltb_true in E2.
    assert (E1 : Qltb x c1 = true) by (apply Qltb_true; lra).
    now rewrite E1.
  - reflexivity.
Qed.

(** An earlier (smaller) cutoff finds nothing left to pop. *)
Lemma evict_evict_ge (c1 c2 : Q) (d : list Q) :
  (c1 <= c2)%Q -> evict c1 (evict c2 d) = evict c2 d.
Proof.
  intros Hc. apply evict_fixed.
  destruct (evict c2 d) as [|x r] eqn:E; [exact I|].
  apply evict_head in E. lra.
Qed.



(** ** What a call does to the stored deques *)

Lemma getitem_insert_eq (m : gmap string (list Q)) (k : string) (d : list Q) :
  getitem (<[k := d]> m) k = d.
Proof. unfold getitem. now rewrite lookup_insert_eq. Qed.

Lemma getitem_insert_ne (m : gmap string (list Q)) (k k' : string) (d : list Q) :
  k <> k' -> getitem (<[k := d]> m) k' = getitem m k'.
Proof. intros H. unfold getitem. now rewrite lookup_insert_ne. Qed.

Lemma is_allowed_requests (self : RateLimiter) (k : string) (t : Q) :
  _requests (fst (is_allowed self k t)) =
  <[k := if max_requests self <=? Z.of_nat (length (kept_at self k t))
         then kept_at self k t else kept_at self k t ++ [t]]> (_requests self).
Proof.
  unfold is_allowed, kept_at.
  destruct (max_requests self <=? _); [|reflexivity].
  destruct (deque_first _); reflexivity.
Qed.

Lemma get_status_requests (self : RateLimiter) (k : string) (t : Q) :
  _requests (fst (get_status self k t)) = <[k := kept_at self k t]> (_requests self).
Proof. reflexivity. Qed.

Lemma is_allowed_config (self : RateLimiter) (k : string) (t : Q) :
  max_requests (fst (is_allowed self k t)) = max_requests self /\
  window_seconds (fst (is_allowed self k t)) = window_seconds self.
Proof.
  unfold is_allowed.
  destruct (max_requests self <=? _); [|split; reflexivity].
  destruct (deque_first _); split; reflexivity.
Qed.

Lemma reset_user_config (self : RateLimiter) (k : string) :
  max_requests (reset_user self k) = max_requests self /\
  window_seconds (reset_user self k) = window_seconds self.
Proof. unfold reset_user. destruct (_requests self !! k); split; reflexivity. Qed.

Lemma reset_user_requests (self : RateLimiter) (k : string) :
  _requests (reset_user self k) = delete k (_requests self).
Proof.
  unfold reset_user. destruct (_requests self !! k) eqn:E; [reflexivity|].
  symmetry. now apply delete_id.
Qed.

Lemma perform_config (self : RateLimiter) (c : call) :
  max_requests (fst (perform self c)) = max_requests self /\
  window_seconds (fst (perform self c)) = window_seconds self.
Proof.
  destruct c as [k t|k t|k|]; simpl.
  - pose proof (is_allowed_config self k t) as H.
    destruct (is_allowed self k t). exact H.
  - split; reflexivity.
  - apply reset_user_config.
  - split; reflexivity.
Qed.

Lemma run_cons (self : RateLimiter) (c : call) (cs : list call) :
  run self (c :: cs) =
  (fst (run (fst (perform self c)) cs),
   (c, snd (perform self c)) :: snd (run (fst (perform self c)) cs)).
Proof.
  simpl. destruct (perform self c) as [self' r]. simpl.
  destruct (run self' cs). reflexivity.
Qed.

Lemma run_config (cs : list call) (self : RateLimiter) :
  max_requests (fst (run self cs)) = max_requests self /\
  window_seconds (fst (run self cs)) = window_seconds self.
Proof.
  revert self. induction cs as [|c cs IH]; intros self; [split; reflexivity|].
  rewrite run_cons. simpl.
  destruct (IH (fst (perform self c))) as [-> ->]. apply perform_config.
Qed.

Lemma init_return (n : Z) (w : Q) (self : RateLimiter) :
  __init__ n w = Return self ->
  0 < n /\ (0 < w)%Q /\ max_requests self = n /\ window_seconds self = w /\ _requests self = ∅.
Proof.
  unfold __init__. destruct (n <=? 0) eqn:En; [discriminate|].
  destruct (Qle_bool w 0) eqn:Ew; [discriminate|].
  intros [= <-]. simpl. repeat split.
  - lia.
  - apply Qltb_true. unfold Qltb. now rewrite Ew.
Qed.

Lemma reachable_max_requests_pos (self : RateLimiter) :
  reachable self -> 0 < max_requests self.
Proof.
  intros (n & w & self0 & cs & Hinit & <-).
  apply init_return in Hinit as (Hn & _ & Hmax & _).
  destruct (run_config cs self0) as [-> _]. lia.
Qed.

(** ** Construction *)

(** C4. The constructor raises (a [ValueError], the invalid-configuration
    error of the class) exactly when [max_requests <= 0] or
    [window_seconds <= 0]; when it raises there is no instance; when it
    returns one, the instance holds both arguments as given, and they are
    still the same after any sequence of method calls. *)
Theorem init_raises_iff_invalid (n : Z) (w : Q) :
  ((exists e, __init__ n w = Raise e) <-> (n <= 0 \/ (w <= 0)%Q)) /\
  (forall e, __init__ n w = Raise e -> exists msg, e = ValueError msg) /\
  (n <= 0 \/ (w <= 0)%Q -> forall self, __init__ n w <> Return self) /\
  (forall self, __init__ n w = Return self ->
     max_requests self = n /\ window_seconds self = w /\
     forall cs, max_requests (fst (run self cs)) = n /\
                window_seconds (fst (run self cs)) = w).
Proof.
  assert (Hiff : (exists e, __init__ n w = Raise e) <-> (n <= 0 \/ (w <= 0)%Q)).
  { unfold __init__. destruct (n <=? 0) eqn:En.
    - split; [intros _; left; lia | intros _; eauto].
    - destruct (Qle_bool w 0) eqn:Ew.
      + split; [intros _; right; now apply Qle_bool_iff | intros _; eauto].
      + split; [intros [e He]; discriminate|].
        intros [H|H]; [lia|]. apply Qle_bool_iff in H. congruence. }
  split; [exact Hiff|]. split; [|split].
  - unfold __init__. intros e.
    destruct (n <=? 0); [intros [= <-]; eauto|].
    destruct (Qle_bool w 0); [intros [= <-]; eauto | discriminate].
  - intros Hbad self Hret. apply Hiff in Hbad as [e He]. congruence.
  - intros self Hret.
    apply init_return in Hret as (_ & _ & Hn & Hw & _).
    split; [exact Hn|]. split; [exact Hw|].
    intros cs. destruct (run_config cs self) as [-> ->]. now split.
Qed.

(** ** Eviction is exact on a non-decreasing deque *)



(** ** The decision of [is_allowed] *)





(** ** The report of [get_status] *)



(** ** Keys are independent *)

(** A call about another key does not touch the record of [k]. *)
Lemma perform_other_key (self : RateLimiter) (c : call) (k1 k : string) :
  call_key c = Some k1 -> k1 <> k ->
  _requests (fst (perform self c)) !! k = _requests self !! k.
Proof.
  intros Hc Hne. destruct c as [u t|u t|u|]; simpl in Hc; try discriminate;
    injection Hc as ->; simpl.
  - pose proof (is_allowed_requests self k1 t) as H.
    destruct (is_allowed self k1 t) as [self' r]. simpl in *.
    rewrite H. now apply lookup_insert_ne.
  - now apply lookup_insert_ne.
  - rewrite reset_user_requests. now apply lookup_delete_ne.
Qed.

(** What [is_allowed] returns and stores for a key is determined by the
    configuration and the record of that key. *)
Lemma is_allowed_agree (k : string) (t : Q) (l1 l2 : RateLimiter) :
  agree_on k l1 l2 ->
  snd (is_allowed l1 k t) = snd (is_allowed l2 k t) /\
  _requests (fst (is_allowed l1 k t)) !! k = _requests (fst (is_allowed l2 k t)) !! k.
Proof.
  intros (Hn & Hw & Hk). split.
  - unfold is_allowed, getitem. rewrite Hn, Hw, Hk.
    destruct (max_requests l2 <=? _); [|reflexivity].
    destruct (deque_first _); reflexivity.
  - rewrite !is_allowed_requests, !lookup_insert_eq.
    unfold kept_at, getitem. now rewrite Hn, Hw, Hk.
Qed.

Lemma get_status_agree (k : string) (t : Q) (l1 l2 : RateLimiter) :
  agree_on k l1 l2 ->
  snd (get_status l1 k t) = snd (get_status l2 k t) /\
  _requests (fst (get_status l1 k t)) !! k = _requests (fst (get_status l2 k t)) !! k.
Proof.
  intros (Hn & Hw & Hk). split.
  - unfold get_status, getitem. rewrite Hn, Hw, Hk. reflexivity.
  - rewrite !get_status_requests, !lookup_insert_eq.
    unfold kept_at, getitem. now rewrite Hw, Hk.
Qed.

Lemma perform_agree_config (k : string) (c : call) (l1 l2 : RateLimiter) :
  agree_on k l1 l2 ->
  max_requests (fst (perform l1 c)) = max_requests (fst (perform l2 c)) /\
  window_seconds (fst (perform l1 c)) = window_seconds (fst (perform l2 c)).
Proof.
  intros (Hn & Hw & _).
  destruct (perform_config l1 c) as [-> ->].
  destruct (perform_config l2 c) as [-> ->]. now split.
Qed.

(** The same call on two limiters that agree on [k]: they still agree on
    [k] afterwards, and a call about [k] returns the same. *)
Lemma perform_agree (k : string) (c : call) (l1 l2 : RateLimiter) :
  agree_on k l1 l2 ->
  agree_on k (fst (perform l1 c)) (fst (perform l2 c)) /\
  (call_key c = Some k -> snd (perform l1 c) = snd (perform l2 c)).
Proof.
  intros Ha. pose proof (perform_agree_config k c l1 l2 Ha) as [Hn Hw].
  unfold agree_on. rewrite Hn, Hw.
  destruct (decide (call_key c = Some k)) as [Hc|Hc].
  - destruct c as [u t|u t|u|]; simpl in Hc; try discriminate;
      injection Hc as ->; simpl.
    + destruct (is_allowed_agree k t l1 l2 Ha) as [Hr Hs].
      destruct (is_allowed l1 k t), (is_allowed l2 k t). simpl in *.
      repeat split; [exact Hs | congruence].
    + destruct (get_status_agree k t l1 l2 Ha) as [Hr Hs].
      unfold get_status in *. simpl in *. repeat split; [exact Hs | congruence].
    + rewrite !reset_user_requests, !lookup_delete_eq. repeat split.
  - split; [|intros H; contradiction]. repeat split.
    destruct Ha as (_ & _ & Hk).
    destruct (call_key c) as [k1|] eqn:Ek.
    + assert (k1 <> k) by congruence.
      rewrite !(perform_other_key _ c k1 k) by assumption. exact Hk.
    + destruct c; try discriminate. reflexivity.
Qed.

(** Dropping the calls about [k1] from a sequence changes nothing for
    another key. *)
Lemma run_without_key (k1 k2 : string) (cs : list call) (l1 l2 : RateLimiter) :
  k1 <> k2 -> agree_on k2 l1 l2 ->
  returns_on k2 (snd (run l1 cs))
    = returns_on k2 (snd (run l2 (List.filter (fun c => negb (on_key k1 c)) cs))) /\
  agree_on k2 (fst (run l1 cs))
    (fst (run l2 (List.filter (fun c => negb (on_key k1 c)) cs))).
Proof.
  intros Hne. revert l1 l2. induction cs as [|c cs IH]; intros l1 l2 Ha.
  - simpl. split; [reflexivity | exact Ha].
  - rewrite run_cons. cbn [List.filter].
    destruct (on_key k1 c) eqn:E1; cbn [negb].
    + apply bool_decide_eq_true in E1.
      assert (E2 : on_key k2 c = false).
      { apply bool_decide_eq_false. congruence. }
      unfold returns_on. cbn [fst snd List.filter]. rewrite E2.
      apply IH.
      destruct Ha as (Hn & Hw & Hk).
      destruct (perform_config l1 c) as [Hn' Hw'].
      unfold agree_on. rewrite Hn', Hw', (perform_other_key l1 c k1 k2) by assumption.
      now repeat split.
    + rewrite run_cons. unfold returns_on. cbn [fst snd List.filter].
      destruct (perform_agree k2 c l1 l2 Ha) as [Ha' Hr].
      destruct (IH _ _ Ha') as [IHr IHa]. split; [|exact IHa].
      destruct (on_key k2 c) eqn:E2.
      * apply bool_decide_eq_true in E2. rewrite (Hr E2). f_equal. exact IHr.
      * exact IHr.
Qed.

Lemma agree_on_refl (k : string) (self : RateLimiter) : agree_on k self self.
Proof. repeat split. Qed.

(** C7. For distinct keys [k1] and [k2]: an [is_allowed], [get_status] or
    [reset_user] call about [k1] leaves the stored record of [k2] as it
    was; and in any sequence of calls, every call about [k2] returns what
    it returns when all the calls about [k1] are left out, and the record
    of [k2] at the end is the same. So using up the quota of [k1] never
    rejects [k2], and resetting [k1] leaves the quota state of [k2] as it
    was. *)
Theorem distinct_keys_independent (k1 k2 : string) :
  k1 <> k2 ->
  (forall self c, call_key c = Some k1 ->
     _requests (fst (perform self c)) !! k2 = _requests self !! k2) /\
  (forall self cs,
     let cs' := List.filter (fun c => negb (on_key k1 c)) cs in
     returns_on k2 (snd (run self cs)) = returns_on k2 (snd (run self cs')) /\
     _requests (fst (run self cs)) !! k2 = _requests (fst (run self cs')) !! k2).
Proof.
  intros Hne. split.
  - intros self c Hc. now apply (perform_other_key self c k1 k2).
  - intros self cs cs'.
    destruct (run_without_key k1 k2 cs self self Hne (agree_on_refl k2 self))
      as (Hr & _ & _ & Hk).
    split; assumption.
Qed.

Lemma distinct_keys_independent_witness :
  "a"%string <> "b"%string /\
  returns_on "b"
    (snd (run limiter_one
            [IsAllowed "a" (inject_Z 0); IsAllowed "a" (inject_Z 0);
             ResetUser "a"; IsAllowed "b" (inject_Z 0)]))
  = returns_on "b" (snd (run limiter_one [IsAllowed "b" (inject_Z 0)])).
Proof.
  assert (Hne : "a"%string <> "b"%string) by discriminate.
  split; [exact Hne|].
  destruct (distinct_keys_independent "a" "b" Hne) as [_ Hrun].
  exact (proj1 (Hrun limiter_one
                  [IsAllowed "a" (inject_Z 0); IsAllowed "a" (inject_Z 0);
                   ResetUser "a"; IsAllowed "b" (inject_Z 0)])).
Defined.

(** ** Resets *)





(** ** The stored sequences stay within the quota *)

Lemma getitem_bounded (self : RateLimiter) (k : string) :
  bounded self -> Z.of_nat (length (getitem (_requests self) k)) <= max_requests self.
Proof.
  intros [Hpos Hb]. unfold getitem.
  destruct (_requests self !! k) as [d|] eqn:E; simpl; [eauto | lia].
Qed.

Lemma kept_at_bounded (self : RateLimiter) (k : string) (t : Q) :
  bounded self -> Z.of_nat (length (kept_at self k t)) <= max_requests self.
Proof.
  intros Hb. pose proof (getitem_bounded self k Hb).
  pose proof (evict_length (t - window_seconds self)%Q (getitem (_requests self) k)).
  unfold kept_at. lia.
Qed.

Lemma perform_bounded (self : RateLimiter) (c : call) :
  bounded self -> bounded (fst (perform self c)).
Proof.
  intros Hb. pose proof Hb as [Hpos Hd].
  destruct (perform_config self c) as [Hn _].
  split; [lia|]. rewrite Hn. intros k d.
  destruct c as [u t|u t|u|]; simpl.
  - pose proof (is_allowed_requests self u t) as H.
    destruct (is_allowed self u t) as [self' r]. simpl in *. rewrite H.
    pose proof (kept_at_bounded self u t Hb) as Hkept.
    destruct (decide (u = k)) as [->|Hne].
    + rewrite lookup_insert_eq. intros [= <-].
      destruct (max_requests self <=? _) eqn:E; [exact Hkept|].
      apply Z.leb_gt in E. rewrite length_app. simpl. lia.
    + rewrite lookup_insert_ne by assumption. apply Hd.
  - pose proof (kept_at_bounded self u t Hb) as Hkept.
    fold (kept_at self u t).
    destruct (decide (u = k)) as [->|Hne].
    + rewrite lookup_insert_eq. now intros [= <-].
    + rewrite lookup_insert_ne by assumption. apply Hd.
  - rewrite reset_user_requests. intros Hk.
    apply lookup_delete_Some in Hk as [_ Hk]. eauto.
  - rewrite lookup_empty. discriminate.
Qed.

Lemma run_bounded (cs : list call) (self : RateLimiter) :
  bounded self -> bounded (fst (run self cs)).
Proof.
  revert self. induction cs as [|c cs IH]; intros self Hb; [exact Hb|].
  rewrite run_cons. simpl. apply IH, perform_bounded, Hb.
Qed.

Lemma reachable_bounded (self : RateLimiter) : reachable self -> bounded self.
Proof.
  intros (n & w & self0 & cs & Hinit & <-). apply run_bounded.
  apply init_return in Hinit as (Hn & _ & Hmax & _ & Hreq).
  split; [lia|]. intros k d. rewrite Hreq, lookup_empty. discriminate.
Qed.

(** C9. In every reachable limiter each key's stored sequence has at most
    [max_requests] entries; so a rejected [is_allowed] call reports
    [current_requests] equal to [max_requests]. *)
Theorem stored_entries_bounded (self : RateLimiter) :
  reachable self ->
  (forall k d, _requests self !! k = Some d ->
     Z.of_nat (length d) <= max_requests self) /\
  (forall k t info, snd (is_allowed self k t) = Return (false, info) ->
     Info.current_requests info = max_requests self).
Proof.
  intros Hr. apply reachable_bounded in Hr. split; [apply Hr|].
  intros k t info. pose proof (kept_at_bounded self k t Hr) as Hkept.
  unfold is_allowed. fold (kept_at self k t).
  destruct (max_requests self <=? _) eqn:E; [|discriminate].
  apply Z.leb_le in E.
  destruct (deque_first _); [|discriminate].
  intros [= <-]. simpl. lia.
Qed.

Lemma stored_entries_bounded_witness :
  reachable limiter_one_used /\
  exists info,
    snd (is_allowed limiter_one_used "u" (inject_Z 0)) = Return (false, info) /\
    Info.current_requests info = 1.
Proof.
  assert (Hr : reachable limiter_one_used).
  { exists 1, (inject_Z 60), limiter_one, [IsAllowed "u" (inject_Z 0)].
    split; reflexivity. }
  split; [exact Hr|].
  destruct (stored_entries_bounded limiter_one_used Hr) as [_ Hrej].
  eexists. split; [reflexivity|].
  exact (Hrej "u"%string (inject_Z 0) _ eq_refl).
Defined.

(** ** The sliding-window guarantee *)





Lemma is_allowed_admits (self : RateLimiter) (k : string) (t : Q) :
  admits (snd (is_allowed self k t))
  = negb (max_requests self <=? Z.of_nat (length (kept_at self k t))).
Proof.
  unfold is_allowed. fold (kept_at self k t).
  destruct (max_requests self <=? _); [|reflexivity].
  destruct (kept_at self k t); reflexivity.
Qed.



(** A call about another key: no timestamp for [k], no admission of [k],
    and the deque of [k] as before. *)
Lemma other_key_step (k u : string) (c : call) (self : RateLimiter) (cs : list call) :
  call_key c = Some u -> u <> k ->
  times_on k (c :: cs) = times_on k cs /\
  admitted_time k (c, snd (perform self c)) = None /\
  getitem (_requests (fst (perform self c))) k = getitem (_requests self) k.
Proof.
  intros Hc Hne. split; [|split].
  - destruct c as [u' t|u' t|u'|]; simpl in *; try discriminate;
      try reflexivity; injection Hc as ->; now rewrite decide_False.
  - destruct c as [u' t|u' t|u'|]; simpl in *; try discriminate;
      try reflexivity. injection Hc as ->.
    destruct (is_allowed self u t) as [self' r]. simpl.
    rewrite bool_decide_eq_false_2 by assumption. now rewrite andb_false_r.
  - unfold getitem. now rewrite (perform_other_key self c u k).
Qed.




(** ** [get_status] between [is_allowed] calls *)

Lemma getitem_is_allowed (self : RateLimiter) (u k : string) (t : Q) :
  getitem (_requests (fst (is_allowed self u t))) k
  = if decide (u = k)
    then (if max_requests self <=? Z.of_nat (length (kept_at self u t))
          then kept_at self u t else kept_at self u t ++ [t])
    else getitem (_requests self) k.
Proof.
  rewrite is_allowed_requests. destruct (decide (u = k)) as [->|Hne].
  - apply getitem_insert_eq.
  - now apply getitem_insert_ne.
Qed.

Lemma getitem_get_status (self : RateLimiter) (u k : string) (t : Q) :
  getitem (_requests (fst (get_status self u t))) k
  = if decide (u = k) then kept_at self u t else getitem (_requests self) k.
Proof.
  rewrite get_status_requests. destruct (decide (u = k)) as [->|Hne].
  - apply getitem_insert_eq.
  - now apply getitem_insert_ne.
Qed.

Lemma getitem_reset_user (self : RateLimiter) (u k : string) :
  getitem (_requests (reset_user self u)) k
  = if decide (u = k) then [] else getitem (_requests self) k.
Proof.
  rewrite reset_user_requests. unfold getitem. destruct (decide (u = k)) as [->|Hne].
  - now rewrite lookup_delete_eq.
  - now rewrite lookup_delete_ne.
Qed.



Lemma perform_is_allowed (self : RateLimiter) (u : string) (t : Q) :
  perform self (IsAllowed u t)
  = (fst (is_allowed self u t), RetIsAllowed (snd (is_allowed self u t))).
Proof. simpl. now destruct (is_allowed self u t). Qed.





(** ** Keys are not validated *)




(** ** Further properties: bursts and expiry *)














(** ** Further properties: order of the stored timestamps *)

Lemma Sorted_suffix (p l : list Q) : Sorted Qle (p ++ l) -> Sorted Qle l.
Proof.
  induction p as [|x p IH]; simpl; [intros H; exact H|].
  intros H. apply Sorted_inv in H as [H _]. now apply IH.
Qed.

Lemma Sorted_snoc (l : list Q) (t : Q) :
  Sorted Qle l -> Forall (fun x => (x <= t)%Q) l -> Sorted Qle (l ++ [t]).
Proof.
  induction l as [|x l IH]; simpl; intros Hs Hle.
  - repeat constructor.
  - apply Sorted_inv in Hs as [Hs Hhd]. apply Forall_cons in Hle as [Hx Hle].
    constructor; [now apply IH|].
    destruct l as [|y l]; simpl; constructor; [exact Hx|].
    now inversion Hhd.
Qed.

Lemma times_on_app (k : string) (cs1 cs2 : list call) :
  times_on k (cs1 ++ cs2) = times_on k cs1 ++ times_on k cs2.
Proof.
  induction cs1 as [|c cs1 IH]; [reflexivity|].
  destruct c as [u t|u t|u|]; simpl; try exact IH;
    destruct (decide (u = k)); simpl; now rewrite IH.
Qed.

(** What eviction keeps of a sorted deque whose entries are not after the
    calls to come is sorted, and not after them either. *)
Lemma kept_ordered (c : Q) (d future : list Q) :
  Sorted Qle d ->
  Forall (fun x => Forall (Qle x) future) d ->
  Sorted Qle (evict c d) /\ Forall (fun x => Forall (Qle x) future) (evict c d).
Proof.
  intros Hs Hf. destruct (evict_split c d) as (p & Hd & _).
  rewrite Hd in Hs, Hf. split.
  - now apply Sorted_suffix in Hs.
  - now apply Forall_app in Hf as [_ Hf].
Qed.

(** With the timestamps of the calls about [k] (and the timestamps [later]
    of calls still to come) in non-decreasing order, the deque of [k] stays
    sorted and not after the calls to come. *)
Lemma run_ordered (k : string) (later : list Q) (cs : list call) :
  forall self : RateLimiter,
    StronglySorted Qle (times_on k cs ++ later) ->
    Sorted Qle (getitem (_requests self) k) ->
    Forall (fun x => Forall (Qle x) (times_on k cs ++ later))
           (getitem (_requests self) k) ->
    Sorted Qle (getitem (_requests (fst (run self cs))) k) /\
    Forall (fun x => Forall (Qle x) later)
           (getitem (_requests (fst (run self cs))) k).
Proof.
  induction cs as [|c cs IH]; intros self Hts Hs Hf; [now split|].
  rewrite run_cons. cbn [fst].
  assert (Hother : forall u, call_key c = Some u -> u <> k ->
            Sorted Qle (getitem (_requests (fst (run (fst (perform self c)) cs))) k) /\
            Forall (fun x => Forall (Qle x) later)
                   (getitem (_requests (fst (run (fst (perform self c)) cs))) k)).
  { intros u Hu Hne.
    destruct (other_key_step k u c self cs Hu Hne) as (Ht & _ & Hg).
    rewrite Ht in Hts, Hf. apply IH; [exact Hts | now rewrite Hg | now rewrite Hg]. }
  assert (Hstep : forall t, times_on k (c :: cs) = t :: times_on k cs ->
            StronglySorted Qle (times_on k cs ++ later) /\
            Forall (Qle t) (times_on k cs ++ later) /\
            Sorted Qle (evict (t - window_seconds self)%Q (getitem (_requests self) k)) /\
            Forall (fun x => Forall (Qle x) (times_on k cs ++ later))
                   (evict (t - window_seconds self)%Q (getitem (_requests self) k)) /\
            Forall (fun x => (x <= t)%Q)
                   (evict (t - window_seconds self)%Q (getitem (_requests self) k))).
  { intros t Ht. rewrite Ht in Hts, Hf. simpl in Hts, Hf.
    apply StronglySorted_inv in Hts as [Hts Hall].
    destruct (kept_ordered (t - window_seconds self)%Q _ _ Hs Hf) as [Hks Hkf].
    split; [exact Hts|]. split; [exact Hall|]. split; [exact Hks|]. split.
    - eapply Forall_impl; [exact Hkf|]. intros x Hx. now inversion Hx.
    - eapply Forall_impl; [exact Hkf|]. intros x Hx. now inversion Hx. }
  destruct c as [u t|u t|u|].
  - destruct (decide (u = k)) as [->|Hne]; [|now apply (Hother u)].
    destruct (Hstep t) as (Hts' & Hall & Hks & Hkf & Hkt).
    { simpl. now rewrite decide_True. }
    rewrite perform_is_allowed. cbn [fst].
    apply IH; [exact Hts'| |];
      rewrite getitem_is_allowed, decide_True by reflexivity;
      unfold kept_at; destruct (max_requests self <=? _); try assumption.
    + now apply Sorted_snoc.
    + apply Forall_app. split; [exact Hkf|]. now constructor.
  - destruct (decide (u = k)) as [->|Hne]; [|now apply (Hother u)].
    destruct (Hstep t) as (Hts' & Hall & Hks & Hkf & Hkt).
    { simpl. now rewrite decide_True. }
    cbn [perform get_status fst].
    pose proof (getitem_get_status self k k t) as Hg.
    unfold get_status in Hg. cbn [fst] in Hg. rewrite decide_True in Hg by reflexivity.
    apply IH; [exact Hts' | |]; rewrite Hg; unfold kept_at; assumption.
  - destruct (decide (u = k)) as [->|Hne]; [|now apply (Hother u)].
    cbn [perform fst]. simpl in Hts.
    apply IH; [exact Hts | |];
      rewrite getitem_reset_user, decide_True by reflexivity; constructor.
  - cbn [perform fst]. simpl in Hts.
    apply IH; [exact Hts | |]; constructor.
Qed.

(** X5. From the constructor on, when for each key the timestamps of the
    calls about it never decrease, every stored sequence is in
    non-decreasing order, oldest first: the order that eviction from the
    front relies on. *)
Theorem stored_sequences_sorted
    (n : Z) (w : Q) (self0 : RateLimiter) (cs : list call) :
  __init__ n w = Return self0 ->
  (forall k, Sorted Qle (times_on k cs)) ->
  forall k d, _requests (fst (run self0 cs)) !! k = Some d -> Sorted Qle d.
Proof.
  intros Hinit Hts k d Hd.
  apply init_return in Hinit as (_ & _ & _ & _ & Hreq).
  destruct (run_ordered k [] cs self0) as [Hs _].
  - rewrite app_nil_r. apply Sorted_StronglySorted; [exact Qle_trans | apply Hts].
  - unfold getitem. rewrite Hreq, lookup_empty. constructor.
  - unfold getitem. rewrite Hreq, lookup_empty. constructor.
  - unfold getitem in Hs. now rewrite Hd in Hs.
Qed.

Lemma stored_sequences_sorted_witness :
  __init__ 2 (inject_Z 60) = Return limiter_two /\
  (forall k, Sorted Qle (times_on k four_calls)) /\
  _requests (fst (run limiter_two four_calls)) !! "u"%string
    = Some [inject_Z 10; inject_Z 65] /\
  Sorted Qle [inject_Z 10; inject_Z 65].
Proof.
  assert (Hinit : __init__ 2 (inject_Z 60) = Return limiter_two) by reflexivity.
  assert (Hts : forall k, Sorted Qle (times_on k four_calls)).
  { intros k. simpl. destruct (decide ("u"%string = k)); sorted_closed. }
  assert (Hd : _requests (fst (run limiter_two four_calls)) !! "u"%string
               = Some [inject_Z 10; inject_Z 65]) by reflexivity.
  split; [exact Hinit|]. split; [exact Hts|]. split; [exact Hd|].
  exact (stored_sequences_sorted 2 (inject_Z 60) limiter_two four_calls
           Hinit Hts "u"%string _ Hd).
Defined.





(** ** Further properties: the wait after a rejection *)








(** ** Further properties: status and requests together *)

Lemma evict_idempotent (c : Q) (d : list Q) : evict c (evict c d) = evict c d.
Proof. apply evict_evict_le. apply Qle_refl. Qed.

(** Reading the status first, at the same time, changes nothing for the
    request: the same answer, the same limiter afterwards. *)
Lemma is_allowed_after_status (self : RateLimiter) (k : string) (t : Q) :
  is_allowed (fst (get_status self k t)) k t = is_allowed self k t.
Proof.
  unfold is_allowed, get_status.
  cbn [fst max_requests window_seconds _requests].
  rewrite getitem_insert_eq, evict_idempotent, !insert_insert_eq.
  reflexivity.
Qed.

(** X9. The status predicts the request made at the same time:
    [is_allowed] of the status is the flag that [is_allowed] returns; the
    request returns the same and leaves the same limiter whether the status
    was read just before or not; and [current_requests] of the answer is
    that of the status, plus one when the request is admitted. *)
Theorem status_predicts (self : RateLimiter) (user_id : string) (current_time : Q) :
  Status.is_allowed (snd (get_status self user_id current_time))
    = admits (snd (is_allowed self user_id current_time)) /\
  is_allowed (fst (get_status self user_id current_time)) user_id current_time
    = is_allowed self user_id current_time /\
  (forall b info,
     snd (is_allowed self user_id current_time) = Return (b, info) ->
     Info.current_requests info
     = Status.current_requests (snd (get_status self user_id current_time))
       + (if b then 1 else 0)).
Proof.
  split; [|split].
  - rewrite is_allowed_admits. unfold get_status.
    fold (kept_at self user_id current_time). cbn [snd Status.is_allowed].
    apply Z.ltb_antisym.
  - apply is_allowed_after_status.
  - intros b info. unfold is_allowed, get_status.
    fold (kept_at self user_id current_time). cbn [snd Status.current_requests].
    destruct (max_requests self <=? _).
    + destruct (deque_first _); [|discriminate].
      intros [= <- <-]. simpl. lia.
    + intros [= <- <-]. reflexivity.
Qed.



(** X11. A request that is not admitted leaves the limiter exactly as a
    status read at that time leaves it (expired entries evicted, nothing
    appended), and asked again at the same time it gets the same answer
    and leaves the same limiter. *)
Theorem rejection_leaves_no_trace
    (self : RateLimiter) (user_id : string) (current_time : Q) :
  admits (snd (is_allowed self user_id current_time)) = false ->
  fst (is_allowed self user_id current_time)
    = fst (get_status self user_id current_time) /\
  is_allowed (fst (is_allowed self user_id current_time)) user_id current_time
    = is_allowed self user_id current_time.
Proof.
  intros Hrej.
  assert (Hst : fst (is_allowed self user_id current_time)
                = fst (get_status self user_id current_time)).
  { revert Hrej. unfold is_allowed, get_status.
    destruct (max_requests self <=? _); [|discriminate].
    destruct (deque_first _); reflexivity. }
  split; [exact Hst|]. rewrite Hst. apply is_allowed_after_status.
Qed.

Lemma rejection_leaves_no_trace_witness :
  admits (snd (is_allowed limiter_full "u" (inject_Z 30))) = false /\
  _requests (fst (is_allowed limiter_full "u" (inject_Z 30))) = _requests limiter_full.
Proof.
  assert (Hrej : admits (snd (is_allowed limiter_full "u" (inject_Z 30))) = false)
    by reflexivity.
  split; [exact Hrej|].
  destruct (rejection_leaves_no_trace limiter_full "u" (inject_Z 30) Hrej) as [-> _].
  reflexivity.
Defined.

(** ** Further properties: the limiter as a whole *)

Lemma reachable_window_pos (self : RateLimiter) :
  reachable self -> (0 < window_seconds self)%Q.
Proof.
  intros (n & w & self0 & cs & Hinit & <-).
  apply init_return in Hinit as (_ & Hw & _ & Hwin & _).
  destruct (run_config cs self0) as [_ ->]. now rewrite Hwin.
Qed.

(** X12. [reset_all()] brings a limiter back to what the constructor
    returns for its [max_requests] and [window_seconds]. *)
Theorem reset_all_is_fresh (self : RateLimiter) :
  reachable self ->
  __init__ (max_requests self) (window_seconds self) = Return (reset_all self).
Proof.
  intros Hr.
  pose proof (reachable_max_requests_pos self Hr) as Hn.
  pose proof (reachable_window_pos self Hr) as Hw.
  unfold __init__, reset_all.
  destruct (max_requests self <=? 0) eqn:En; [apply Z.leb_le in En; lia|].
  destruct (Qle_bool (window_seconds self) 0) eqn:Ew; [|reflexivity].
  apply Qle_bool_iff in Ew. lra.
Qed.

Lemma reset_all_is_fresh_witness :
  reachable limiter_one_used /\
  __init__ 1 (inject_Z 60) = Return (reset_all limiter_one_used).
Proof.
  assert (Hr : reachable limiter_one_used).
  { exists 1, (inject_Z 60), limiter_one, [IsAllowed "u" (inject_Z 0)].
    split; reflexivity. }
  split; [exact Hr|].
  exact (reset_all_is_fresh limiter_one_used Hr).
Defined.

(** X13. What a reachable limiter reports stays within the quota:
    [get_status] has [0 <= current_requests <= max_requests],
    [remaining_requests] is their non-negative difference and [is_allowed]
    says whether it is positive; every answer of [is_allowed] has
    [1 <= current_requests <= max_requests], and an admitted one has
    [remaining_requests = max_requests - current_requests >= 0]. *)
Theorem reports_within_quota (self : RateLimiter) (user_id : string) (current_time : Q) :
  reachable self ->
  (let status := snd (get_status self user_id current_time) in
   0 <= Status.current_requests status <= max_requests self /\
   Status.remaining_requests status = max_requests self - Status.current_requests status /\
   0 <= Status.remaining_requests status /\
   (Status.is_allowed status = true <-> 0 < Status.remaining_requests status)) /\
  (forall b info,
     snd (is_allowed self user_id current_time) = Return (b, info) ->
     1 <= Info.current_requests info <= max_requests self /\
     (b = true ->
      Info.remaining_requests info = Some (max_requests self - Info.current_requests info))).
Proof.
  intros Hr.
  pose proof (reachable_max_requests_pos self Hr) as Hpos.
  pose proof (kept_at_bounded self user_id current_time (reachable_bounded self Hr)) as Hb.
  split.
  - unfold get_status. fold (kept_at self user_id current_time).
    cbn [snd Status.current_requests Status.remaining_requests Status.is_allowed].
    rewrite Z.ltb_lt. repeat split; lia.
  - intros b info. unfold is_allowed. fold (kept_at self user_id current_time).
    destruct (max_requests self <=? _) eqn:E.
    + apply Z.leb_le in E. destruct (deque_first _); [|discriminate].
      intros [= <- <-]. simpl. split; [lia | discriminate].
    + apply Z.leb_gt in E. intros [= <- <-]. simpl. split; [lia | reflexivity].
Qed.

Lemma reports_within_quota_witness :
  reachable limiter_one_used /\
  Status.remaining_requests (snd (get_status limiter_one_used "u" (inject_Z 0))) = 0 /\
  Status.is_allowed (snd (get_status limiter_one_used "u" (inject_Z 0))) = false.
Proof.
  assert (Hr : reachable limiter_one_used).
  { exists 1, (inject_Z 60), limiter_one, [IsAllowed "u" (inject_Z 0)].
    split; reflexivity. }
  split; [exact Hr|].
  destruct (reports_within_quota limiter_one_used "u" (inject_Z 0) Hr)
    as [(_ & Hrem & _ & _) _].
  split; [rewrite Hrem|]; reflexivity.
Defined.

#[local] Set Warnings "-clear-no-such-hyp".

Lemma perform_dom (self : RateLimiter) (c : call) :
  dom (_requests (fst (perform self c)))
    ⊆ dom (_requests self) ∪ call_keys [c].
Proof.
  unfold call_keys. destruct c as [u t|u t|u|]; simpl.
  - pose proof (is_allowed_requests self u t) as H.
    destruct (is_allowed self u t) as [self' r]. simpl in *.
    rewrite H, dom_insert_L. set_solver.
  - rewrite dom_insert_L. set_solver.
  - rewrite reset_user_requests, dom_delete_L. set_solver.
  - rewrite dom_empty_L. set_solver.
Qed.

Lemma call_keys_cons (c : call) (cs : list call) :
  call_keys (c :: cs) = call_keys [c] ∪ call_keys cs.
Proof.
  unfold call_keys. simpl. destruct (call_key c); simpl; set_solver.
Qed.

Lemma run_dom (cs : list call) (self : RateLimiter) :
  dom (_requests (fst (run self cs))) ⊆ dom (_requests self) ∪ call_keys cs.
Proof.
  revert self. induction cs as [|c cs IH]; intros self; [set_solver|].
  rewrite run_cons, call_keys_cons. cbn [fst].
  pose proof (IH (fst (perform self c))). pose proof (perform_dom self c).
  set_solver.
Qed.

(** X14. The limiter holds records only for keys that were asked about:
    from the constructor on, every key with a record is named by one of
    the calls made. *)
Theorem tracked_keys_were_asked
    (n : Z) (w : Q) (self0 : RateLimiter) (cs : list call) :
  __init__ n w = Return self0 ->
  dom (_requests (fst (run self0 cs))) ⊆ call_keys cs.
Proof.
  intros Hinit. apply init_return in Hinit as (_ & _ & _ & _ & Hreq).
  pose proof (run_dom cs self0) as H. rewrite Hreq, dom_empty_L in H. set_solver.
Qed.

Lemma tracked_keys_were_asked_witness :
  __init__ 1 (inject_Z 60) = Return limiter_one /\
  dom (_requests (fst (run limiter_one
                         [GetStatus "a" (inject_Z 0); IsAllowed "b" (inject_Z 0);
                          ResetUser "b"])))
    ⊆ ({[ "a"%string; "b"%string ]} : gset string).
Proof.
  assert (Hinit : __init__ 1 (inject_Z 60) = Return limiter_one) by reflexivity.
  split; [exact Hinit|].
  pose proof (tracked_keys_were_asked 1 (inject_Z 60) limiter_one
                [GetStatus "a" (inject_Z 0); IsAllowed "b" (inject_Z 0); ResetUser "b"]
                Hinit) as H.
  unfold call_keys in H. simpl in H. set_solver.
Defined.

Lemma limiter_eq (l1 l2 : RateLimiter) :
  max_requests l1 = max_requests l2 ->
  window_seconds l1 = window_seconds l2 ->
  _requests l1 = _requests l2 ->
  l1 = l2.
Proof. destruct l1, l2. simpl. now intros -> -> ->. Qed.

Lemma agree_after_other (self : RateLimiter) (c : call) (k1 k : string) :
  call_key c = Some k1 -> k1 <> k -> agree_on k (fst (perform self c)) self.
Proof.
  intros Hc Hne. destruct (perform_config self c) as [Hn Hw].
  repeat split; [exact Hn | exact Hw |]. now apply (perform_other_key self c k1 k).
Qed.

(** X15. Calls about two different keys commute: made in either order
    they leave the same limiter, and each returns what it returns when made
    alone. *)
Theorem distinct_keys_commute (self : RateLimiter) (c1 c2 : call) (k1 k2 : string) :
  call_key c1 = Some k1 -> call_key c2 = Some k2 -> k1 <> k2 ->
  fst (run self [c1; c2]) = fst (run self [c2; c1]) /\
  snd (perform (fst (perform self c1)) c2) = snd (perform self c2) /\
  snd (perform (fst (perform self c2)) c1) = snd (perform self c1).
Proof.
  intros H1 H2 Hne.
  assert (Hne' : k2 <> k1) by congruence.
  destruct (perform_agree k2 c2 _ _ (agree_after_other self c1 k1 k2 H1 Hne))
    as [(_ & _ & Hk2) Hr2].
  destruct (perform_agree k1 c1 _ _ (agree_after_other self c2 k2 k1 H2 Hne'))
    as [(_ & _ & Hk1) Hr1].
  split; [|split; [exact (Hr2 H2) | exact (Hr1 H1)]].
  rewrite !run_cons. cbn [fst run].
  apply limiter_eq.
  - destruct (perform_config (fst (perform self c1)) c2) as [-> _].
    destruct (perform_config (fst (perform self c2)) c1) as [-> _].
    destruct (perform_config self c1) as [-> _].
    destruct (perform_config self c2) as [-> _]. reflexivity.
  - destruct (perform_config (fst (perform self c1)) c2) as [_ ->].
    destruct (perform_config (fst (perform self c2)) c1) as [_ ->].
    destruct (perform_config self c1) as [_ ->].
    destruct (perform_config self c2) as [_ ->]. reflexivity.
  - apply map_eq. intros k.
    destruct (decide (k = k1)) as [->|Hk1'].
    + rewrite Hk1. now apply (perform_other_key _ c2 k2 k1).
    + destruct (decide (k = k2)) as [->|Hk2'].
      * rewrite Hk2. symmetry. now apply (perform_other_key _ c1 k1 k2).
      * rewrite (perform_other_key _ c2 k2 k), (perform_other_key _ c1 k1 k),
          (perform_other_key _ c1 k1 k), (perform_other_key _ c2 k2 k)
          by (assumption || congruence).
        reflexivity.
Qed.

Lemma distinct_keys_commute_witness :
  "a"%string <> "b"%string /\
  fst (run limiter_one [IsAllowed "a" (inject_Z 5); ResetUser "b"])
  = fst (run limiter_one [ResetUser "b"; IsAllowed "a" (inject_Z 5)]).
Proof.
  assert (Hne : "a"%string <> "b"%string) by discriminate.
  split; [exact Hne|].
  exact (proj1 (distinct_keys_commute limiter_one
                  (IsAllowed "a" (inject_Z 5)) (ResetUser "b") "a" "b"
                  eq_refl eq_refl Hne)).
Defined.

Lemma sum_lengths_bounded {A : Type} (f : A -> nat) (b : Z) (l : list A) :
  Forall (fun x => Z.of_nat (f x) <= b) l ->
  Z.of_nat (sum_list_with f l) <= b * Z.of_nat (length l).
Proof.
  induction 1 as [|x l Hx _ IH]; simpl; [lia|]. lia.
Qed.

(** X16. A reachable limiter holds at most [max_requests] timestamps for
    each key it has a record for: in all, at most [max_requests] times the
    number of records. *)
Theorem stored_total_bounded (self : RateLimiter) :
  reachable self ->
  Z.of_nat (stored_total self)
    <= max_requests self * Z.of_nat (size (_requests self)).
Proof.
  intros Hr. apply reachable_bounded in Hr as [_ Hb].
  unfold stored_total. rewrite <- length_map_to_list.
  apply sum_lengths_bounded. apply Forall_forall. intros [k d] Hin.
  apply elem_of_map_to_list in Hin. simpl. eauto.
Qed.

Lemma stored_total_bounded_witness :
  reachable limiter_two_used /\
  stored_total limiter_two_used = 2%nat /\
  Z.of_nat (stored_total limiter_two_used)
    <= max_requests limiter_two_used * Z.of_nat (size (_requests limiter_two_used)).
Proof.
  assert (Hr : reachable limiter_two_used).
  { exists 2, (inject_Z 60), limiter_two,
      [IsAllowed "u" (inject_Z 0); IsAllowed "u" (inject_Z 10)].
    split; reflexivity. }
  split; [exact Hr|]. split; [reflexivity|].
  exact (stored_total_bounded limiter_two_used Hr).
Defined.

(** ** Further properties: what the status shows of a request *)






(** * Text statistics: properties of [analyze_text] *)

(** ** The order of [sorted] *)

Lemma str_leb_refl (a : list N) : TextAnalyzer.str_leb a a = true.
Proof.
  induction a as [|x a IH]; simpl; [reflexivity|].
  now rewrite N.ltb_irrefl, N.eqb_refl.
Qed.

Lemma str_leb_total (a b : list N) :
  TextAnalyzer.str_leb a b = true \/ TextAnalyzer.str_leb b a = true.
Proof.
  revert b. induction a as [|x a IH]; intros [|y b]; simpl; auto.
  destruct (N.ltb_spec x y), (N.ltb_spec y x), (N.eqb_spec x y), (N.eqb_spec y x);
    auto; lia.
Qed.

Lemma str_leb_trans (a b c : list N) :
  TextAnalyzer.str_leb a b = true -> TextAnalyzer.str_leb b c = true ->
  TextAnalyzer.str_leb a c = true.
Proof.
  revert b c. induction a as [|x a IH]; intros [|y b] [|z c]; simpl; auto;
    try discriminate.
  destruct (N.ltb_spec x y), (N.ltb_spec y z), (N.ltb_spec x z),
    (N.eqb_spec x y), (N.eqb_spec y z), (N.eqb_spec x z);
    auto; try discriminate; try lia.
  apply IH.
Qed.

Lemma str_leb_antisym (a b : list N) :
  TextAnalyzer.str_leb a b = true -> TextAnalyzer.str_leb b a = true -> a = b.
Proof.
  revert b. induction a as [|x a IH]; intros [|y b]; simpl; auto;
    try discriminate.
  destruct (N.ltb_spec x y), (N.ltb_spec y x), (N.eqb_spec x y), (N.eqb_spec y x);
    try discriminate; try lia.
  intros H1 H2. subst. f_equal. now apply IH.
Qed.

#[local] Instance str_le_total : Total TextAnalyzer.str_le.
Proof.
  intros a b. unfold TextAnalyzer.str_le.
  destruct (str_leb_total a b) as [-> | ->]; simpl; auto.
Qed.

#[local] Instance str_le_trans : Transitive TextAnalyzer.str_le.
Proof.
  intros a b c. unfold TextAnalyzer.str_le. rewrite !Is_true_true.
  apply str_leb_trans.
Qed.

Lemma StronglySorted_strict (l : list (list N)) :
  StronglySorted TextAnalyzer.str_le l -> NoDup l ->
  StronglySorted TextAnalyzer.str_lt l.
Proof.
  induction 1 as [|x l Hs IH Hx]; intros Hnd; [constructor|].
  apply NoDup_cons in Hnd as [Hnx Hnd]. constructor; [now apply IH|].
  apply Forall_forall. intros y Hy. rewrite Forall_forall in Hx.
  split; [now apply Hx|]. intros ->. contradiction.
Qed.

(** [sorted(list(set(ws)))] holds the elements of [ws], each once, in
    strictly increasing order. *)
Lemma sorted_set_spec (ws : list (list N)) :
  (forall w, w ∈ TextAnalyzer.sorted_set ws <-> w ∈ ws) /\
  StronglySorted TextAnalyzer.str_lt (TextAnalyzer.sorted_set ws).
Proof.
  unfold TextAnalyzer.sorted_set. split.
  - intros w. rewrite merge_sort_Permutation. apply elem_of_remove_dups.
  - apply StronglySorted_strict.
    + apply StronglySorted_merge_sort; apply _.
    + rewrite merge_sort_Permutation. apply NoDup_remove_dups.
Qed.

(** ** [Counter] *)

Lemma total_count_step (m : gmap (list N) Z) (w : list N) :
  total_count (<[w := default 0 (m !! w) + 1]> m) = total_count m + 1.
Proof.
  unfold total_count.
  rewrite (map_fold_delete_L _ _ w (default 0 (m !! w) + 1) (<[w := _]> m));
    [|intros; lia|apply lookup_insert_eq].
  rewrite delete_insert_eq.
  destruct (m !! w) as [n|] eqn:E; simpl.
  - rewrite (map_fold_delete_L _ _ w n m); [lia|intros; lia|exact E].
  - rewrite delete_id by exact E. lia.
Qed.

Lemma foldl_total_count (words : list (list N)) (m : gmap (list N) Z) :
  total_count (foldl (fun m word => <[word := default 0 (m !! word) + 1]> m) m words)
  = total_count m + Z.of_nat (length words).
Proof.
  revert m. induction words as [|w words IH]; intros m; simpl; [lia|].
  rewrite IH, total_count_step. lia.
Qed.

Lemma foldl_count_lookup (words : list (list N)) (m : gmap (list N) Z) (w : list N) :
  foldl (fun m word => <[word := default 0 (m !! word) + 1]> m) m words !! w
  = counted (m !! w) (length (filter (fun x => x = w) words)).
Proof.
  revert m. induction words as [|x words IH]; intros m; simpl.
  - destruct (m !! w); simpl; [f_equal; lia | reflexivity].
  - rewrite IH. rewrite filter_cons. destruct (decide (x = w)) as [->|Hne].
    + rewrite lookup_insert_eq. simpl.
      destruct (m !! w); simpl; f_equal; lia.
    + now rewrite lookup_insert_ne.
Qed.

(** ** [analyze_text] *)

Section analyze_text_facts.
Context {F : Type}.
Variable float_zero : F.
Variable round_div : Z -> Z -> F.
Variable isspace : N -> bool.
Variable lower : list N -> list N.
Variable isword : N -> bool.

Local Abbreviation lstrip := (TextAnalyzer.lstrip isspace).
Local Abbreviation strip := (TextAnalyzer.strip isspace).
Local Abbreviation findall_from := (TextAnalyzer.findall_from isword).
Local Abbreviation findall := (TextAnalyzer.findall isword).
Local Abbreviation nothing := (TextAnalyzer.nothing float_zero).
Local Abbreviation analyze_text :=
  (TextAnalyzer.analyze_text float_zero round_div isspace lower isword).

Lemma lstrip_nil (s : list N) : lstrip s = [] <-> forallb isspace s = true.
Proof.
  induction s as [|c s IH]; simpl; [tauto|].
  destruct (isspace c); simpl; [exact IH | split; discriminate].
Qed.

Lemma lstrip_all (s : list N) : Forall (fun c => isspace c = true) (lstrip s) -> lstrip s = [].
Proof.
  induction s as [|c s IH]; simpl; [reflexivity|].
  destruct (isspace c) eqn:E; [exact IH|].
  intros H. apply Forall_cons in H as [H _]. congruence.
Qed.

(** [text.strip()] is empty exactly when every character of [text] is
    whitespace. *)
Lemma strip_nil (s : list N) : strip s = [] <-> forallb isspace s = true.
Proof.
  unfold TextAnalyzer.strip. split.
  - intros H. apply lstrip_nil, lstrip_all.
    assert (H' : lstrip (rev (lstrip s)) = []).
    { destruct (lstrip (rev (lstrip s))); [reflexivity|].
      simpl in H. now apply app_eq_nil in H as [_ H]. }
    apply lstrip_nil in H'. rewrite forallb_forall in H'.
    apply Forall_forall. intros c Hc. apply H', in_rev.
    rewrite rev_involutive. now apply list_elem_of_In.
  - intros H. apply lstrip_nil in H. now rewrite H.
Qed.

Lemma blank_iff (text : list N) :
  bool_decide (text = []) || bool_decide (strip text = []) = true
  <-> forallb isspace text = true.
Proof.
  rewrite orb_true_iff, !bool_decide_eq_true, strip_nil. split.
  - intros [-> | H]; [reflexivity | exact H].
  - auto.
Qed.

(** The words found are the runs of word characters: together they are
    the word characters of the text, in order. *)
Lemma findall_from_concat (s cur : list N) :
  concat (findall_from cur s) = rev cur ++ List.filter isword s.
Proof.
  revert cur. induction s as [|c s IH]; intros cur; simpl.
  - destruct cur; simpl; now rewrite ?app_nil_r.
  - destruct (isword c).
    + rewrite IH. simpl. now rewrite <- app_assoc.
    + destruct cur; simpl; rewrite IH; reflexivity.
Qed.

Lemma findall_from_words (s cur : list N) :
  Forall (fun c => isword c = true) cur ->
  Forall (fun w => w <> [] /\ Forall (fun c => isword c = true) w) (findall_from cur s).
Proof.
  revert cur. induction s as [|c s IH]; intros cur Hcur; simpl.
  - destruct cur as [|x cur]; constructor; [|constructor]. split.
    + intros H. apply (f_equal (@length N)) in H. rewrite length_rev in H. discriminate.
    + apply Forall_forall. intros y Hy. rewrite Forall_forall in Hcur.
      apply Hcur. apply list_elem_of_In. apply list_elem_of_In, in_rev in Hy. exact Hy.
  - destruct (isword c) eqn:E.
    + apply IH. now constructor.
    + destruct cur as [|x cur]; [apply IH; constructor|].
      constructor; [|apply IH; constructor]. split.
      * intros H. apply (f_equal (@length N)) in H. rewrite length_rev in H. discriminate.
      * apply Forall_forall. intros y Hy. rewrite Forall_forall in Hcur.
        apply Hcur. apply list_elem_of_In. apply list_elem_of_In, in_rev in Hy. exact Hy.
Qed.

Lemma analyze_text_counted (text : list N) :
  forallb isspace text = false ->
  analyze_text text
  = match findall (lower text) with
    | [] => nothing
    | words =>
        {| TextAnalyzer.word_count := Z.of_nat (length words);
           TextAnalyzer.average_word_length :=
             round_div (Z.of_nat (sum_list_with length words)) (Z.of_nat (length words));
           TextAnalyzer.longest_words :=
             TextAnalyzer.sorted_set
               (List.filter (fun word => Nat.eqb (length word)
                                           (max_list_with length words)) words);
           TextAnalyzer.word_frequency := TextAnalyzer.Counter words |}
    end.
Proof.
  intros Hb. unfold TextAnalyzer.analyze_text.
  destruct (bool_decide (text = []) || bool_decide (strip text = [])) eqn:E.
  - apply blank_iff in E. congruence.
  - destruct (findall (lower text)); reflexivity.
Qed.

(** X19. [analyze_text] returns the all-zero dict exactly when every
    character of the text is whitespace (the empty text included) or the
    lower-cased text holds no word. *)
Theorem analyze_text_nothing (text : list N) :
  analyze_text text = nothing
  <-> forallb isspace text = true \/ findall (lower text) = [].
Proof.
  destruct (forallb isspace text) eqn:Hb.
  - split; [auto|]. intros _. unfold TextAnalyzer.analyze_text.
    apply blank_iff in Hb. now rewrite Hb.
  - rewrite (analyze_text_counted text Hb).
    destruct (findall (lower text)) as [|w ws]; [split; auto|].
    split.
    + intros H. apply (f_equal TextAnalyzer.word_count) in H. simpl in H. lia.
    + intros [H|H]; discriminate.
Qed.

(** X20. For a text that is not all whitespace, [word_count] is the number
    of words found in the lower-cased text, and [word_frequency] holds,
    for each word found, the number of times it was found, and nothing for
    any other word. *)
Theorem analyze_text_frequency (text : list N) :
  forallb isspace text = false ->
  let words := findall (lower text) in
  TextAnalyzer.word_count (analyze_text text) = Z.of_nat (length words) /\
  forall w,
    TextAnalyzer.word_frequency (analyze_text text) !! w
    = match length (filter (fun x => x = w) words) with
      | O => None
      | S c => Some (Z.of_nat (S c))
      end.
Proof.
  intros Hb words. rewrite (analyze_text_counted text Hb). fold words.
  destruct words as [|x ws] eqn:E.
  - simpl. split; [reflexivity|]. intros w. apply lookup_empty.
  - cbn [TextAnalyzer.word_count TextAnalyzer.word_frequency]. split; [reflexivity|].
    intros w. unfold TextAnalyzer.Counter. rewrite foldl_count_lookup, lookup_empty.
    destruct (length (filter (fun y => y = w) (x :: ws))); reflexivity.
Qed.

(** X21. The counts of [word_frequency] add up to [word_count]. *)
Theorem analyze_text_total (text : list N) :
  total_count (TextAnalyzer.word_frequency (analyze_text text))
  = TextAnalyzer.word_count (analyze_text text).
Proof.
  unfold TextAnalyzer.analyze_text.
  destruct (bool_decide (text = []) || bool_decide (strip text = []));
    [reflexivity|].
  destruct (findall (lower text)) as [|x ws]; [reflexivity|].
  cbn [TextAnalyzer.word_count TextAnalyzer.word_frequency].
  unfold TextAnalyzer.Counter. rewrite foldl_total_count. reflexivity.
Qed.

Lemma max_length_bound (words : list (list N)) :
  Forall (fun w => (length w <= max_list_with length words)%nat) words.
Proof.
  induction words as [|x ws IH]; simpl; constructor; [lia|].
  eapply Forall_impl; [exact IH|]. intros w Hw. simpl in Hw. lia.
Qed.

Lemma max_length_attained (words : list (list N)) :
  words <> [] -> exists w, w ∈ words /\ length w = max_list_with length words.
Proof.
  induction words as [|x ws IH]; [congruence|]. intros _. simpl.
  destruct ws as [|y ws'].
  - exists x. split; [left|]. simpl. lia.
  - destruct IH as (w & Hw & Hlen); [discriminate|].
    destruct (Nat.max_spec (length x) (max_list_with length (y :: ws')))
      as [[_ Hm]|[_ Hm]]; rewrite Hm.
    + exists w. split; [now right | exact Hlen].
    + exists x. split; [left | reflexivity].
Qed.

(** X22. For a text that is not all whitespace, [longest_words] holds
    exactly the words found that no word found is longer than, each once,
    in strictly increasing order; it is not empty when a word was found. *)
Theorem analyze_text_longest (text : list N) :
  forallb isspace text = false ->
  let words := findall (lower text) in
  let longest := TextAnalyzer.longest_words (analyze_text text) in
  (forall w, w ∈ longest <->
     w ∈ words /\ forall w', w' ∈ words -> (length w' <= length w)%nat) /\
  StronglySorted TextAnalyzer.str_lt longest /\
  (words <> [] -> longest <> []).
Proof.
  intros Hb words longest. unfold longest.
  rewrite (analyze_text_counted text Hb). fold words.
  destruct words as [|x ws] eqn:E.
  - simpl. split; [|split; [constructor | congruence]].
    intros w. split; [intros H; inversion H | intros [H _]; inversion H].
  - cbn [TextAnalyzer.longest_words].
    destruct (sorted_set_spec
                (List.filter (fun word => Nat.eqb (length word)
                                (max_list_with length (x :: ws))) (x :: ws)))
      as [Hmem Hsort].
    pose proof (max_length_bound (x :: ws)) as Hmax. rewrite Forall_forall in Hmax.
    assert (Hin : forall w, w ∈ TextAnalyzer.sorted_set
                (List.filter (fun word => Nat.eqb (length word)
                                (max_list_with length (x :: ws))) (x :: ws))
              <-> w ∈ x :: ws /\ length w = max_list_with length (x :: ws)).
    { intros w. rewrite Hmem, list_elem_of_In, filter_In, Nat.eqb_eq, <- list_elem_of_In.
      reflexivity. }
    split; [|split; [exact Hsort|]].
    + intros w. rewrite Hin. split.
      * intros [Hw Hlen]. split; [exact Hw|]. intros w' Hw'. rewrite Hlen. now apply Hmax.
      * intros [Hw Hall]. split; [exact Hw|].
        destruct (max_length_attained (x :: ws)) as (w0 & Hw0 & Hlen0); [discriminate|].
        specialize (Hall w0 Hw0). specialize (Hmax w Hw). lia.
    + intros _ Hnil.
      destruct (max_length_attained (x :: ws)) as (w0 & Hw0 & Hlen0); [discriminate|].
      assert (H : w0 ∈ @nil (list N)) by (rewrite <- Hnil; apply Hin; auto).
      inversion H.
Qed.

(** X23. Every key of [word_frequency] is a word: not empty, made of
    word characters only; and its count is at least 1 and at most
    [word_count]. *)
Theorem analyze_text_keys (text : list N) (w : list N) (n : Z) :
  TextAnalyzer.word_frequency (analyze_text text) !! w = Some n ->
  w <> [] /\ Forall (fun c => isword c = true) w /\
  1 <= n <= TextAnalyzer.word_count (analyze_text text).
Proof.
  unfold TextAnalyzer.analyze_text.
  destruct (bool_decide (text = []) || bool_decide (strip text = []));
    [cbn [TextAnalyzer.nothing TextAnalyzer.word_frequency];
     rewrite lookup_empty; discriminate|].
  pose proof (findall_from_words (lower text) [] (List.Forall_nil _)) as Hwords.
  fold (findall (lower text)) in Hwords.
  destruct (findall (lower text)) as [|x ws] eqn:E;
    [cbn [TextAnalyzer.nothing TextAnalyzer.word_frequency];
     rewrite lookup_empty; discriminate|].
  cbn [TextAnalyzer.word_count TextAnalyzer.word_frequency].
  unfold TextAnalyzer.Counter. rewrite foldl_count_lookup, lookup_empty.
  pose proof (length_filter (fun y => y = w) (x :: ws)) as Hle.
  destruct (filter (fun y => y = w) (x :: ws)) as [|y l] eqn:Ef; [discriminate|].
  assert (Hy : y ∈ filter (fun y => y = w) (x :: ws)) by (rewrite Ef; left).
  apply list_elem_of_filter in Hy as [-> Hy].
  rewrite Forall_forall in Hwords. destruct (Hwords w Hy) as [Hne Hw].
  simpl. intros [= <-]. simpl in Hle. split; [exact Hne|]. split; [exact Hw|]. lia.
Qed.

End analyze_text_facts.

(** ** The documented examples, on ASCII text *)

Example analyze_ascii_example :
  let result :=
    TextAnalyzer.analyze_ascii "The quick brown fox jumps over the lazy dog the fox" in
  TextAnalyzer.word_count result = 11 /\
  TextAnalyzer.average_word_length result = (41, 11) /\
  TextAnalyzer.longest_words result
    = [TextAnalyzer.codes "brown"; TextAnalyzer.codes "jumps"; TextAnalyzer.codes "quick"] /\
  TextAnalyzer.word_frequency result !! TextAnalyzer.codes "the" = Some 3 /\
  TextAnalyzer.word_frequency result !! TextAnalyzer.codes "fox" = Some 2.
Proof. vm_compute. repeat split. Qed.

Example analyze_ascii_punctuation :
  TextAnalyzer.word_count (TextAnalyzer.analyze_ascii "Hello, world! How are you?") = 5 /\
  TextAnalyzer.longest_words (TextAnalyzer.analyze_ascii "a ab abc def ghi")
    = [TextAnalyzer.codes "abc"; TextAnalyzer.codes "def"; TextAnalyzer.codes "ghi"] /\
  TextAnalyzer.word_frequency (TextAnalyzer.analyze_ascii "Hello hello HELLO")
    !! TextAnalyzer.codes "hello" = Some 3.
Proof. vm_compute. repeat split. Qed.

Lemma analyze_text_frequency_witness :
  forallb TextAnalyzer.ascii_isspace (TextAnalyzer.codes "Hello hello HELLO") = false /\
  TextAnalyzer.word_frequency (TextAnalyzer.analyze_ascii "Hello hello HELLO")
    !! TextAnalyzer.codes "hello" = Some 3 /\
  TextAnalyzer.word_frequency (TextAnalyzer.analyze_ascii "Hello hello HELLO")
    !! TextAnalyzer.codes "Hello" = None.
Proof.
  assert (Hb : forallb TextAnalyzer.ascii_isspace (TextAnalyzer.codes "Hello hello HELLO")
               = false) by reflexivity.
  split; [exact Hb|].
  destruct (analyze_text_frequency (0, 0) (fun total count => (total, count))
              TextAnalyzer.ascii_isspace TextAnalyzer.ascii_lower TextAnalyzer.ascii_isword
              (TextAnalyzer.codes "Hello hello HELLO") Hb) as [_ Hfreq].
  split.
  - exact (Hfreq (TextAnalyzer.codes "hello")).
  - exact (Hfreq (TextAnalyzer.codes "Hello")).
Defined.

Lemma analyze_text_longest_witness :
  forallb TextAnalyzer.ascii_isspace (TextAnalyzer.codes "a ab abc def ghi") = false /\
  StronglySorted TextAnalyzer.str_lt
    (TextAnalyzer.longest_words (TextAnalyzer.analyze_ascii "a ab abc def ghi")) /\
  TextAnalyzer.longest_words (TextAnalyzer.analyze_ascii "a ab abc def ghi") <> [].
Proof.
  assert (Hb : forallb TextAnalyzer.ascii_isspace (TextAnalyzer.codes "a ab abc def ghi")
               = false) by reflexivity.
  split; [exact Hb|].
  destruct (analyze_text_longest (0, 0) (fun total count => (total, count))
              TextAnalyzer.ascii_isspace TextAnalyzer.ascii_lower TextAnalyzer.ascii_isword
              (TextAnalyzer.codes "a ab abc def ghi") Hb) as (_ & Hsort & Hne).
  split; [exact Hsort|]. apply Hne. vm_compute. discriminate.
Defined.

Lemma analyze_text_keys_witness :
  TextAnalyzer.word_frequency (TextAnalyzer.analyze_ascii "Hello hello HELLO")
    !! TextAnalyzer.codes "hello" = Some 3 /\
  TextAnalyzer.codes "hello" <> [] /\
  1 <= 3 <= TextAnalyzer.word_count (TextAnalyzer.analyze_ascii "Hello hello HELLO").
Proof.
  assert (H : TextAnalyzer.word_frequency (TextAnalyzer.analyze_ascii "Hello hello HELLO")
                !! TextAnalyzer.codes "hello" = Some 3) by (vm_compute; reflexivity).
  split; [exact H|].
  destruct (analyze_text_keys (0, 0) (fun total count => (total, count))
              TextAnalyzer.ascii_isspace TextAnalyzer.ascii_lower TextAnalyzer.ascii_isword
              (TextAnalyzer.codes "Hello hello HELLO") (TextAnalyzer.codes "hello") 3 H)
    as (Hne & _ & Hn).
  exact (conj Hne Hn).
Defined.
